(** * driver/gencounter.py: the Frequency Counter/Timer API

    A shallow embedding of [GenCounter] (src/driver/gencounter.py): the
    [Interfaces] enumeration, the class attributes that every session starts
    from, and [parseConfig], the only method of the class that has a body.

    Python values are dynamically typed, so the embedding carries a small
    universe [value]; a [str] is the sequence of its Unicode code points; a
    [dict] from [str] to [str] is a [gmap]; exceptions and the [logging]
    side effect live in a state-and-error monad [M]. *)

From Stdlib Require Import QArith.
From stdpp Require Import gmap list strings.

(** ** Python strings *)

Module Py.

(** A code point. *)
Definition char := N.
(** A Python 3 [str]. *)
Definition str := list N.

(** Reads a literal of this file as a [str], one code point per character. *)
Definition lit (s : string) : str :=
  Ascii.N_of_ascii <$> String.list_ascii_of_string s.

Definition SPACE : char := 32%N.
Definition COLON : char := 58%N.

(** [c.isspace()] for one code point: the characters [str.strip()] removes
    when it is called without an argument. *)
Definition isspace (c : char) : bool :=
  ((9 <=? c) && (c <=? 13) || (28 <=? c) && (c <=? 32)
   || (c =? 133) || (c =? 160) || (c =? 5760)
   || (8192 <=? c) && (c <=? 8202)
   || (c =? 8232) || (c =? 8233) || (c =? 8239) || (c =? 8287)
   || (c =? 12288))%N.

Fixpoint lstrip (s : str) : str :=
  match s with
  | [] => []
  | c :: s' => if isspace c then lstrip s' else s
  end.

Definition rstrip (s : str) : str := reverse (lstrip (reverse s)).

(** [s.strip()] *)
Definition strip (s : str) : str := rstrip (lstrip s).

(** [s.split(sep)] for a separator of one character: every occurrence of
    [sep] ends a piece, so the result is never empty and two adjacent
    separators give an empty piece. *)
Fixpoint split (sep : char) (s : str) : list str :=
  match s with
  | [] => [[]]
  | c :: s' =>
      if (c =? sep)%N then [] :: split sep s'
      else match split sep s' with
           | [] => [[c]]
           | piece :: pieces => (c :: piece) :: pieces
           end
  end.

(** [sep.join(l)] for a separator of one character. *)
Fixpoint join (sep : char) (l : list str) : str :=
  match l with
  | [] => []
  | [piece] => piece
  | piece :: l' => piece ++ sep :: join sep l'
  end.

(** [s.count(c)] for one character [c]. *)
Fixpoint count (c : char) (s : str) : nat :=
  match s with
  | [] => 0
  | x :: s' => if (x =? c)%N then S (count c s') else count c s'
  end.

End Py.

Import Py.

(** ** Values, exceptions and effects *)

(** [class Interfaces(enum.Enum)] *)
Inductive Interfaces := usb | usb_acm | vxi11.

Definition Interfaces_value (i : Interfaces) : Z :=
  match i with usb => 0 | usb_acm => 1 | vxi11 => 2 end%Z.

(** The Python objects the class handles. *)
Inductive value :=
| VNone
| VBool (b : bool)
| VInt (n : Z)
| VFloat (q : Q)
| VStr (s : str)
| VDict (d : gmap str str)
| VInterface (i : Interfaces).

(** The exceptions the body of [parseConfig] can raise: [s[0]] on an empty
    [s] raises [IndexError]; unpacking a list whose length is not two into
    [key, val] raises [ValueError]. *)
Inductive exn := IndexError | ValueError.

Inductive outcome (A : Type) :=
| Return (a : A)
| Raise (e : exn).
Arguments Return {A} a.
Arguments Raise {A} e.

(** [class GenCounter]: the attributes of a session. *)
Record GenCounter := {
  _nChannels : value;
  _samples : value;
  _interval : value;
  _dbg : value;
  _drv : value;
  _port : value;
  _conn : value;
  _trigcfg : value
}.

(** What a call can read and change: the object it is called on and the
    records the [logging] module has received at level WARNING. *)
Record state := {
  self : GenCounter;
  warnings : list str
}.

Definition M (A : Type) : Type := state → outcome A * state.

Definition raise {A} (e : exn) : M A := λ st, (Raise e, st).

#[global] Instance M_ret : MRet M := λ A a st, (Return a, st).
#[global] Instance M_bind : MBind M := λ A B k m st,
  match m st with
  | (Return a, st') => k a st'
  | (Raise e, st') => (Raise e, st')
  end.

(** [logging.warning(msg)] *)
Definition logging_warning (msg : str) : M unit :=
  λ st, (Return tt, {| self := self st; warnings := warnings st ++ [msg] |}).

(** ** The class body *)

(** The class attributes, which an instance reads until it assigns its own. *)
Definition class_attributes : GenCounter := {|
  _nChannels := VInt 2;
  _samples := VInt 1;
  _interval := VFloat 1e3;
  _dbg := VBool false;
  _drv := VNone;
  _port := VNone;
  _conn := VNone;
  _trigcfg := VNone
|}.

(** [GenCounter.__init__]: its body is its docstring, it assigns nothing. *)
Definition __init__ (interface : Interfaces) (port : str) (name : value)
  : M unit := mret tt.

(** An object that has assigned no attribute of its own, and an empty log. *)
Definition fresh : state := {| self := class_attributes; warnings := [] |}.

(** [GenCounter(interface, port, name)]: a fresh object, then [__init__]. *)
Definition new (interface : Interfaces) (port : str) (name : value)
  : GenCounter :=
  self (__init__ interface port name fresh).2.

(** The [for s in cfgstr.split(" ")] loop of [parseConfig], [cfgdict] being
    the dictionary built so far. *)
Fixpoint parseConfig_loop (pieces : list str) (cfgdict : gmap str str)
  : M (gmap str str) :=
  match pieces with
  | [] => mret cfgdict
  | s :: pieces' =>
      match s with
      | [] => raise IndexError
      | c :: _ =>
          if (c =? SPACE)%N then parseConfig_loop pieces' cfgdict
          else match split COLON s with
               | [key; val] => parseConfig_loop pieces' (<[key:=val]> cfgdict)
               | _ => raise ValueError
               end
      end
  end.

(** [GenCounter.parseConfig] *)
Definition parseConfig (cfgstr : option str) : M value :=
  match cfgstr with
  | None =>
      logging_warning (lit "Empty cfg string passed to the Config Parser");;
      mret (VStr [])
  | Some cfgstr =>
      let cfgstr := strip cfgstr in
      cfgdict ← parseConfig_loop (split SPACE cfgstr) ∅;
      mret (VDict cfgdict)
  end.

(** ** Configuration strings

    The grammar the docstring of [parseConfig] gives:
    [<token>:<value> [<token>:<value>]]. *)

(** One token, [key:value]. *)
Definition token (kv : str * str) : str := kv.1 ++ COLON :: kv.2.

(** The tokens joined by single spaces. *)
Definition cfg_of (kvs : list (str * str)) : str := join SPACE (token <$> kvs).

(** Neither the key nor the value holds one of the two separators. *)
Definition well_formed (kv : str * str) : Prop :=
  (SPACE ∉ kv.1) ∧ (COLON ∉ kv.1) ∧ (SPACE ∉ kv.2) ∧ (COLON ∉ kv.2).

#[global] Instance well_formed_dec kv : Decision (well_formed kv).
Proof. unfold well_formed. apply _. Defined.

(** [cfgdict[key] = val] for each pair in turn, as the loop does it. *)
Definition assign_all (cfgdict : gmap str str) (kvs : list (str * str))
  : gmap str str :=
  foldl (λ d kv, <[kv.1:=kv.2]> d) cfgdict kvs.

(** ** Facts about [split], [join] and [strip] *)

Section strings.
Implicit Types (c sep : char) (s t : str) (l : list str).

Lemma split_not_nil sep s : split sep s ≠ [].
Proof.
  destruct s as [|c s]; simpl; [done|].
  destruct (c =? sep)%N; [done|]. by destruct (split sep s).
Qed.

Lemma split_cons_sep sep s : split sep (sep :: s) = [] :: split sep s.
Proof. simpl. by rewrite N.eqb_refl. Qed.

Lemma split_cons_ne sep c s :
  c ≠ sep →
  split sep (c :: s) = (c :: hd [] (split sep s)) :: tl (split sep s).
Proof.
  intros Hc. simpl. destruct (N.eqb_spec c sep) as [->|_]; [done|].
  pose proof (split_not_nil sep s). by destruct (split sep s).
Qed.

Lemma split_no_sep sep s : sep ∉ s → split sep s = [s].
Proof.
  induction s as [|c s IH]; [done|].
  rewrite not_elem_of_cons. intros [Hc Hs].
  rewrite split_cons_ne by done. by rewrite IH.
Qed.

Lemma split_app_sep sep s t :
  sep ∉ s → split sep (s ++ sep :: t) = s :: split sep t.
Proof.
  induction s as [|c s IH]; [intros _; apply split_cons_sep|].
  rewrite not_elem_of_cons. intros [Hc Hs]. cbn [app].
  rewrite split_cons_ne by done. by rewrite IH.
Qed.

Lemma split_join sep l :
  l ≠ [] → Forall (λ t, sep ∉ t) l → split sep (join sep l) = l.
Proof.
  intros Hl Hsep. induction Hsep as [|t l Ht Hsep IH]; [done|].
  destruct l as [|t' l]; [by apply split_no_sep|].
  change (join sep (t :: t' :: l)) with (t ++ sep :: join sep (t' :: l)).
  rewrite split_app_sep by done. by rewrite IH.
Qed.

Lemma split_pieces sep s : Forall (λ t, sep ∉ t) (split sep s).
Proof.
  induction s as [|c s IH]; [repeat constructor; set_solver|].
  destruct (decide (c = sep)) as [->|Hc].
  - rewrite split_cons_sep. constructor; [set_solver|done].
  - rewrite split_cons_ne by done.
    pose proof (split_not_nil sep s) as Hnil.
    destruct (split sep s) as [|t l]; [done|].
    apply Forall_cons in IH as [Ht Hl]. constructor; [|done].
    cbn. rewrite not_elem_of_cons. auto.
Qed.

Lemma length_split sep s : length (split sep s) = S (count sep s).
Proof.
  induction s as [|c s IH]; [done|]. simpl.
  destruct (c =? sep)%N; simpl; [by rewrite IH|].
  destruct (split sep s); [done|]. by rewrite <- IH.
Qed.

Lemma lstrip_app_spaces ws s :
  Forall (λ c, isspace c) ws → lstrip (ws ++ s) = lstrip s.
Proof.
  induction 1 as [|c ws Hc _ IH]; [done|].
  cbn [app lstrip]. by destruct (isspace c).
Qed.

Lemma rstrip_app_spaces s ws :
  Forall (λ c, isspace c) ws → rstrip (s ++ ws) = rstrip s.
Proof.
  intros Hws. unfold rstrip. rewrite reverse_app.
  rewrite lstrip_app_spaces; [done|]. by apply Forall_reverse.
Qed.

Lemma strip_app_spaces s ws :
  Forall (λ c, isspace c) ws → strip (s ++ ws) = strip s.
Proof.
  intros Hws. unfold strip. induction s as [|c s IH].
  - cbn [app]. rewrite <- (app_nil_r ws).
    by rewrite lstrip_app_spaces.
  - cbn [app lstrip]. destruct (isspace c); [done|].
    by apply (rstrip_app_spaces (c :: s)).
Qed.

(** Whitespace around a string does not survive [strip]. *)
Lemma strip_outer ws1 s ws2 :
  Forall (λ c, isspace c) ws1 → Forall (λ c, isspace c) ws2 →
  strip (ws1 ++ s ++ ws2) = strip s.
Proof.
  intros H1 H2. rewrite app_assoc, strip_app_spaces by done.
  unfold strip. by rewrite lstrip_app_spaces.
Qed.

End strings.

(** ** The loop of [parseConfig] *)

Section loop.
Implicit Types (s t key val : str) (pieces : list str).
Implicit Types (kv : str * str) (kvs : list (str * str)).
Implicit Types (cfgdict d : gmap str str) (st : state).

Lemma parseConfig_Some s st :
  parseConfig (Some s) st =
    match parseConfig_loop (split SPACE (strip s)) ∅ st with
    | (Return d, st') => (Return (VDict d), st')
    | (Raise e, st') => (Raise e, st')
    end.
Proof. reflexivity. Qed.

(** One turn of the loop on a piece that [s[0]] accepts. *)
Lemma parseConfig_loop_cons s pieces d :
  s ≠ [] → SPACE ∉ s →
  parseConfig_loop (s :: pieces) d =
    match split COLON s with
    | [key; val] => parseConfig_loop pieces (<[key:=val]> d)
    | _ => raise ValueError
    end.
Proof.
  destruct s as [|c s]; [done|]. intros _ Hc.
  apply not_elem_of_cons in Hc as [Hc _].
  cbn [parseConfig_loop]. by destruct (N.eqb_spec c SPACE).
Qed.

Lemma token_not_nil kv : token kv ≠ [].
Proof. unfold token. by destruct kv.1. Qed.

Lemma token_no_space kv : well_formed kv → SPACE ∉ token kv.
Proof.
  intros (Hk & _ & Hv & _). unfold token.
  rewrite not_elem_of_app, not_elem_of_cons. by repeat split.
Qed.

Lemma split_token kv :
  COLON ∉ kv.1 → COLON ∉ kv.2 → split COLON (token kv) = [kv.1; kv.2].
Proof.
  intros Hk Hv. unfold token.
  by rewrite split_app_sep, split_no_sep.
Qed.

(** A well-formed token is assigned and the loop goes on. *)
Lemma parseConfig_loop_token kv pieces d :
  well_formed kv →
  parseConfig_loop (token kv :: pieces) d
  = parseConfig_loop pieces (<[kv.1:=kv.2]> d).
Proof.
  intros Hwf. rewrite parseConfig_loop_cons
    by auto using token_not_nil, token_no_space.
  destruct Hwf as (_ & Hk & _ & Hv). by rewrite split_token.
Qed.

Lemma parseConfig_loop_app kvs pieces d :
  Forall well_formed kvs →
  parseConfig_loop ((token <$> kvs) ++ pieces) d
  = parseConfig_loop pieces (assign_all d kvs).
Proof.
  intros Hwf. revert d.
  induction Hwf as [|kv kvs Hkv _ IH]; intros d; [done|].
  cbn [fmap list_fmap app]. rewrite parseConfig_loop_token by done.
  apply IH.
Qed.

Lemma parseConfig_loop_tokens kvs d st :
  Forall well_formed kvs →
  parseConfig_loop (token <$> kvs) d st = (Return (assign_all d kvs), st).
Proof.
  intros Hwf. rewrite <- (app_nil_r (token <$> kvs)).
  by rewrite parseConfig_loop_app.
Qed.

(** The loop never touches the state, whatever it is given. *)
Lemma parseConfig_loop_pure pieces d :
  ∃ r, ∀ st, parseConfig_loop pieces d st = (r, st).
Proof.
  revert d. induction pieces as [|s pieces IH]; intros d.
  - by exists (Return d).
  - destruct s as [|c s]; [by exists (Raise IndexError)|].
    cbn [parseConfig_loop]. destruct (c =? SPACE)%N; [apply IH|].
    destruct (split COLON (c :: s)) as [|key [|val [|? ?]]];
      try by exists (Raise ValueError).
    apply IH.
Qed.

(** A piece without a colon stops the loop, when no piece holds a space
    (and none does after [split(" ")]). *)
Lemma parseConfig_loop_malformed pieces t d st :
  Forall (λ s, SPACE ∉ s) pieces → t ∈ pieces → COLON ∉ t →
  ∃ e, parseConfig_loop pieces d st = (Raise e, st)
       ∧ ([] ∉ pieces → e = ValueError).
Proof.
  intros Hsp Ht Hcolon. revert d.
  induction Hsp as [|s pieces Hs Hsp IH]; intros d; [by inv Ht|].
  destruct (decide (s = [])) as [->|Hnil].
  { exists IndexError. split; [done|]. intros []. by left. }
  rewrite parseConfig_loop_cons by done.
  assert (Hnot : [] ∉ s :: pieces → [] ∉ pieces)
    by (rewrite not_elem_of_cons; tauto).
  destruct (split COLON s) as [|key [|val [|? ?]]] eqn:Hsplit;
    try by exists ValueError.
  apply elem_of_cons in Ht as [->|Ht].
  - rewrite split_no_sep in Hsplit by done. done.
  - destruct (IH Ht (<[key:=val]> d)) as (e & He & Hv). eauto.
Qed.

Lemma assign_all_list_to_map kvs d :
  assign_all d kvs = list_to_map (reverse kvs) ∪ d.
Proof.
  revert d. induction kvs as [|[k v] kvs IH]; intros d.
  - symmetry. apply (left_id_L ∅ (∪)).
  - cbn [assign_all foldl]. fold (assign_all (<[k:=v]> d) kvs).
    rewrite IH, reverse_cons, list_to_map_app. cbn [list_to_map foldr].
    rewrite <- (assoc_L (∪)). f_equal.
    by rewrite <- insert_union_l, (left_id_L ∅ (∪)).
Qed.

(** The result on every well-formed configuration string. *)
Lemma parseConfig_cfg_of s kvs st :
  kvs ≠ [] → Forall well_formed kvs → strip s = cfg_of kvs →
  parseConfig (Some s) st
  = (Return (VDict (list_to_map (reverse kvs))), st).
Proof.
  intros Hnil Hwf Hs. rewrite parseConfig_Some, Hs. unfold cfg_of.
  rewrite split_join.
  - rewrite parseConfig_loop_tokens by done.
    by rewrite assign_all_list_to_map, (right_id_L ∅ (∪)).
  - by destruct kvs.
  - apply Forall_fmap. eapply Forall_impl; [done|].
    intros kv. apply token_no_space.
Qed.

End loop.

(** ** The session *)

(** C8. A newly constructed session has two channels, takes one sample,
    waits 1000 ms between samples, has debugging off and has no saved
    trigger configuration. *)
Theorem new_defaults interface port name :
  let session := new interface port name in
  _nChannels session = VInt 2
  ∧ _samples session = VInt 1
  ∧ _interval session = VFloat 1000
  ∧ _dbg session = VBool false
  ∧ _trigcfg session = VNone.
Proof. by repeat split. Qed.

(** C10. [parseConfig] leaves the session as it found it, and what it
    returns or raises does not depend on the session. *)
Theorem parseConfig_read_only cfgstr st :
  self (parseConfig cfgstr st).2 = self st
  ∧ ∀ st', (parseConfig cfgstr st').1 = (parseConfig cfgstr st).1.
Proof.
  destruct cfgstr as [s|]; [|done].
  destruct (parseConfig_loop_pure (split SPACE (strip s)) ∅) as [r Hr].
  split; [|intros st']; rewrite !parseConfig_Some, !Hr; by destruct r.
Qed.

(** ** The absent and the empty configuration string *)

(** C1. For [None], [parseConfig] logs a warning and returns the empty
    string, which is no mapping; for the empty string it raises
    [IndexError], because [split] gives one empty piece and [s[0]] reads
    its first character. *)
Theorem parseConfig_None_empty st :
  parseConfig None st
  = (Return (VStr []),
     {| self := self st;
        warnings := warnings st
          ++ [lit "Empty cfg string passed to the Config Parser"] |})
  ∧ parseConfig (Some []) st = (Raise IndexError, st).
Proof. done. Qed.

(** ** Well-formed configuration strings *)

(** C2. When the string is, inside its surrounding whitespace,
    [k1:v1 k2:v2 ... kn:vn] with distinct keys, [parseConfig] returns the
    dictionary whose keys are exactly [k1 ... kn] and whose entries are
    exactly the pairs [(ki, vi)]. *)
Theorem parseConfig_exact s kvs st :
  kvs ≠ [] → Forall well_formed kvs → NoDup kvs.*1 →
  strip s = cfg_of kvs →
  ∃ d, parseConfig (Some s) st = (Return (VDict d), st)
       ∧ dom d = list_to_set kvs.*1
       ∧ ∀ k v, d !! k = Some v ↔ (k, v) ∈ kvs.
Proof.
  intros Hnil Hwf Hdup Hs. exists (list_to_map kvs). split; [|split].
  - rewrite (parseConfig_cfg_of s kvs) by done. do 3 f_equal.
    apply list_to_map_proper; [|by rewrite reverse_Permutation].
    by rewrite fmap_reverse, reverse_Permutation.
  - apply dom_list_to_map_L.
  - intros k v. symmetry. by apply elem_of_list_to_map.
Qed.

Lemma parseConfig_exact_witness :
  ∃ d, parseConfig (Some (lit "ch:1 cou:dc")) fresh = (Return (VDict d), fresh)
       ∧ dom d = {[lit "ch"; lit "cou"]}
       ∧ d !! lit "ch" = Some (lit "1") ∧ d !! lit "cou" = Some (lit "dc").
Proof.
  destruct (parseConfig_exact (lit "ch:1 cou:dc")
              [(lit "ch", lit "1"); (lit "cou", lit "dc")] fresh)
    as (d & Hd & Hdom & Hlookup).
  - done.
  - compute_done.
  - compute_done.
  - by vm_compute.
  - exists d. split; [done|]. split.
    + rewrite Hdom. compute_done.
    + split; apply Hlookup; compute_done.
Defined.

(** C3. Two well-formed strings with distinct keys whose tokens are a
    permutation of each other parse to the same dictionary. *)
Theorem parseConfig_order_independent s1 s2 kvs1 kvs2 st :
  kvs1 ≠ [] → Forall well_formed kvs1 → NoDup kvs1.*1 →
  kvs1 ≡ₚ kvs2 →
  strip s1 = cfg_of kvs1 → strip s2 = cfg_of kvs2 →
  ∃ d, parseConfig (Some s1) st = (Return (VDict d), st)
       ∧ parseConfig (Some s2) st = (Return (VDict d), st).
Proof.
  intros Hnil Hwf Hdup Hperm Hs1 Hs2.
  assert (kvs2 ≠ []) as Hnil2.
  { intros ->. by apply Permutation_nil_r in Hperm. }
  assert (Forall well_formed kvs2) as Hwf2 by (by rewrite <- Hperm).
  exists (list_to_map (reverse kvs1)).
  split; [by apply parseConfig_cfg_of|].
  rewrite (parseConfig_cfg_of s2 kvs2) by done. do 3 f_equal.
  apply list_to_map_proper.
  - by rewrite fmap_reverse, reverse_Permutation, <- Hperm.
  - by rewrite !reverse_Permutation.
Qed.

Lemma parseConfig_order_independent_witness :
  ∃ d, parseConfig (Some (lit "ch:1 cou:dc")) fresh = (Return (VDict d), fresh)
       ∧ parseConfig (Some (lit "cou:dc ch:1")) fresh
         = (Return (VDict d), fresh).
Proof.
  apply (parseConfig_order_independent _ _
           [(lit "ch", lit "1"); (lit "cou", lit "dc")]
           [(lit "cou", lit "dc"); (lit "ch", lit "1")]).
  - done.
  - compute_done.
  - compute_done.
  - apply perm_swap.
  - by vm_compute.
  - by vm_compute.
Defined.

(** C7. Every key of a well-formed string is a key of the returned
    dictionary, whatever the key is: nothing is checked against a schema
    and nothing is filtered out. *)
Theorem parseConfig_keeps_every_key s kvs st :
  kvs ≠ [] → Forall well_formed kvs → strip s = cfg_of kvs →
  ∃ d, parseConfig (Some s) st = (Return (VDict d), st)
       ∧ ∀ k, k ∈ kvs.*1 → is_Some (d !! k).
Proof.
  intros Hnil Hwf Hs. exists (list_to_map (reverse kvs)).
  split; [by apply parseConfig_cfg_of|].
  intros k Hk. apply elem_of_dom. rewrite dom_list_to_map_L.
  by rewrite elem_of_list_to_set, fmap_reverse, elem_of_reverse.
Qed.

Lemma parseConfig_keeps_every_key_witness :
  ∃ d, parseConfig (Some (lit "ch:1 zzz:9 ch:2")) fresh
       = (Return (VDict d), fresh)
       ∧ is_Some (d !! lit "zzz") ∧ is_Some (d !! lit "ch").
Proof.
  destruct (parseConfig_keeps_every_key (lit "ch:1 zzz:9 ch:2")
              [(lit "ch", lit "1"); (lit "zzz", lit "9"); (lit "ch", lit "2")]
              fresh)
    as (d & Hd & Hkeys).
  - done.
  - compute_done.
  - by vm_compute.
  - exists d. split; [done|].
    split; apply Hkeys; compute_done.
Defined.



(** ** Strings that are not well formed *)

(** Whitespace before and after the configuration string is ignored. *)
Lemma parseConfig_outer_whitespace ws1 s ws2 :
  Forall (λ c, isspace c) ws1 → Forall (λ c, isspace c) ws2 →
  parseConfig (Some (ws1 ++ s ++ ws2)) = parseConfig (Some s).
Proof.
  intros H1 H2. unfold parseConfig. by rewrite strip_outer.
Qed.

(** X11. When one of the pieces between the spaces has no colon,
    [parseConfig] raises and returns nothing; the exception is the
    [ValueError] of the failed unpacking when no piece is empty. *)
Theorem parseConfig_malformed_token s t st :
  t ∈ split SPACE (strip s) → COLON ∉ t →
  ∃ e, parseConfig (Some s) st = (Raise e, st)
       ∧ ([] ∉ split SPACE (strip s) → e = ValueError).
Proof.
  intros Ht Hcolon. rewrite parseConfig_Some.
  destruct (parseConfig_loop_malformed (split SPACE (strip s)) t ∅ st)
    as (e & -> & He); eauto using split_pieces.
Qed.

Lemma parseConfig_malformed_token_witness :
  parseConfig (Some (lit "cou:dc ch1")) fresh = (Raise ValueError, fresh).
Proof.
  destruct (parseConfig_malformed_token (lit "cou:dc ch1") (lit "ch1") fresh)
    as (e & He & Hv).
  - compute_done.
  - compute_done.
  - rewrite He, Hv; [done|]. compute_done.
Defined.

(** C4. A piece without a colon raises the [ValueError] of the failed
    unpacking when the loop gets to it; behind two spaces in a row it does
    not: the empty piece between them raises [IndexError] at [s[0]]
    first. *)
Theorem parseConfig_blank_before_malformed st :
  parseConfig (Some (lit "cou:dc  ch1")) st = (Raise IndexError, st)
  ∧ parseConfig (Some (lit "cou:dc ch1")) st = (Raise ValueError, st)
  ∧ parseConfig (Some (lit "ch1")) st = (Raise ValueError, st).
Proof.
  repeat split; by vm_compute.
Qed.

(** C5, as the code has it. A piece with exactly one colon, wherever it
    stands among well-formed tokens, is cut at that colon: its key is in
    the dictionary, bound to the value as it stands unless a later token
    assigns the key again. A piece with two colons or more is not cut at
    the first one: behind well-formed tokens, and whatever follows it, the
    unpacking into [key, val] raises [ValueError]. *)
Theorem parseConfig_token_split s kvs t rest st :
  Forall well_formed kvs →
  split SPACE (strip s) = (token <$> kvs) ++ t :: rest →
  (∀ key val kvs',
     t = token (key, val) → COLON ∉ key → COLON ∉ val →
     rest = token <$> kvs' → Forall well_formed kvs' →
     ∃ d, parseConfig (Some s) st = (Return (VDict d), st)
          ∧ is_Some (d !! key)
          ∧ (key ∉ kvs'.*1 → d !! key = Some val))
  ∧ (2 ≤ count COLON t → parseConfig (Some s) st = (Raise ValueError, st)).
Proof.
  intros Hwf Hs.
  assert (SPACE ∉ t) as Hsp.
  { pose proof (split_pieces SPACE (strip s)) as Hall. rewrite Hs in Hall.
    apply Forall_app in Hall as [_ Hall]. by apply Forall_cons in Hall as [? _]. }
  split.
  - intros key val kvs' -> Hkey Hval -> Hwf'.
    assert (well_formed (key, val)) as Hkv.
    { unfold token in Hsp. cbn [fst snd] in Hsp.
      rewrite not_elem_of_app, not_elem_of_cons in Hsp.
      destruct Hsp as (? & _ & ?). by repeat split. }
    assert (Forall well_formed (kvs ++ (key, val) :: kvs')) as Hall.
    { apply Forall_app. split; [done|by constructor]. }
    exists (list_to_map (reverse (kvs ++ (key, val) :: kvs'))).
    split; [|split].
    + rewrite parseConfig_Some, Hs.
      change (token (key, val) :: (token <$> kvs'))
        with (token <$> (key, val) :: kvs').
      rewrite <- fmap_app, parseConfig_loop_tokens by done.
      by rewrite assign_all_list_to_map, (right_id_L ∅ (∪)).
    + apply elem_of_dom.
      rewrite dom_list_to_map_L, elem_of_list_to_set, fmap_reverse.
      rewrite elem_of_reverse, fmap_app, elem_of_app. right. by left.
    + intros Hk. rewrite reverse_app, reverse_cons, !list_to_map_app.
      apply lookup_union_Some_l. rewrite lookup_union_r.
      * cbn. apply lookup_insert_eq.
      * apply not_elem_of_list_to_map_1.
        by rewrite fmap_reverse, elem_of_reverse.
  - intros Hcount. rewrite parseConfig_Some, Hs, parseConfig_loop_app by done.
    rewrite parseConfig_loop_cons;
      [|intros ->; simpl in Hcount; lia|done].
    pose proof (length_split COLON t) as Hlen.
    by destruct (split COLON t) as [|? [|? [|? ?]]]; simpl in Hlen; try lia.
Qed.

Lemma parseConfig_token_split_witness :
  (∃ d, parseConfig (Some (lit "ch:1 exp:125E6 cou:dc")) fresh
        = (Return (VDict d), fresh)
        ∧ is_Some (d !! lit "exp")
        ∧ d !! lit "exp" = Some (lit "125E6"))
  ∧ parseConfig (Some (lit "ch:1 exp:1:25E6 cou:dc")) fresh
    = (Raise ValueError, fresh).
Proof.
  split.
  - destruct (proj1 (parseConfig_token_split (lit "ch:1 exp:125E6 cou:dc")
                       [(lit "ch", lit "1")] (lit "exp:125E6")
                       [lit "cou:dc"] fresh
                       ltac:(compute_done) ltac:(by vm_compute))
                (lit "exp") (lit "125E6") [(lit "cou", lit "dc")])
      as (d & Hd & Hsome & Hval);
      [by vm_compute|compute_done|compute_done|by vm_compute|compute_done|].
    exists d. split; [done|]. split; [done|]. apply Hval. compute_done.
  - apply (proj2 (parseConfig_token_split (lit "ch:1 exp:1:25E6 cou:dc")
                    [(lit "ch", lit "1")] (lit "exp:1:25E6")
                    [lit "cou:dc"] fresh
                    ltac:(compute_done) ltac:(by vm_compute))).
    compute_done.
Defined.

(** C5, as the specification has it, fails: [exp:1:25E6] does not come
    back as the key [exp] with the value [1:25E6]; the call raises. *)
Lemma parseConfig_first_colon_counterexample :
  parseConfig (Some (lit "exp:1:25E6")) fresh = (Raise ValueError, fresh)
  ∧ ¬ ∃ d, (parseConfig (Some (lit "exp:1:25E6")) fresh).1 = Return (VDict d)
           ∧ d !! lit "exp" = Some (lit "1:25E6").
Proof.
  split; [by vm_compute|]. intros (d & Hd & _). by vm_compute in Hd.
Qed.

(** C6. Two spaces in a row leave an empty piece between them, and
    [s[0]] on it raises [IndexError]: the doubled form does not parse to
    what the single-spaced form parses to. *)
Theorem parseConfig_double_space st :
  parseConfig (Some (lit "k1:v1  k2:v2")) st = (Raise IndexError, st)
  ∧ parseConfig (Some (lit "k1:v1 k2:v2")) st
    = (Return (VDict {[lit "k1" := lit "v1"; lit "k2" := lit "v2"]}), st).
Proof.
  split; by vm_compute.
Qed.


(** ** More on [split], [join] and [strip] *)

Section pieces.
Implicit Types (c sep : char) (s t : str) (l : list str).

(** Joining the pieces back gives the string that was split. *)
Lemma join_split sep s : join sep (split sep s) = s.
Proof.
  induction s as [|c s IH]; [done|].
  pose proof (split_not_nil sep s) as Hnil.
  destruct (decide (c = sep)) as [->|Hc].
  - rewrite split_cons_sep. destruct (split sep s); [done|].
    cbn [join app]. cbn [join] in IH. by rewrite IH.
  - rewrite split_cons_ne by done.
    destruct (split sep s) as [|t [|t' l]]; [done|..]; cbn in *; by rewrite IH.
Qed.

(** A separator in the middle splits the pieces of both sides apart. *)
Lemma split_app sep s t :
  split sep (s ++ sep :: t) = split sep s ++ split sep t.
Proof.
  induction s as [|c s IH]; [apply split_cons_sep|]. cbn [app].
  destruct (decide (c = sep)) as [->|Hc].
  - by rewrite !split_cons_sep, IH.
  - rewrite !split_cons_ne, IH by done.
    pose proof (split_not_nil sep s). by destruct (split sep s).
Qed.

Lemma count_not_elem_of c s : c ∉ s → count c s = 0.
Proof.
  induction s as [|x s IH]; [done|].
  rewrite not_elem_of_cons. intros [Hx Hs]. simpl.
  destruct (N.eqb_spec x c); [congruence|auto].
Qed.

Lemma count_app c s t : count c (s ++ t) = count c s + count c t.
Proof.
  induction s as [|x s IH]; [done|]. simpl.
  destruct (x =? c)%N; simpl; by rewrite IH.
Qed.

Lemma count_cons_eq c s : count c (c :: s) = S (count c s).
Proof. simpl. by rewrite N.eqb_refl. Qed.

(** A piece with exactly one colon is a key, the colon and a value. *)
Lemma one_colon_token t :
  count COLON t = 1 ↔
  ∃ key val, t = token (key, val) ∧ (COLON ∉ key) ∧ (COLON ∉ val).
Proof.
  split.
  - intros Hcount. pose proof (length_split COLON t) as Hlen.
    pose proof (split_pieces COLON t) as Hall.
    pose proof (join_split COLON t) as Hjoin.
    rewrite Hcount in Hlen.
    destruct (split COLON t) as [|key [|val [|? ?]]]; try done.
    apply Forall_cons in Hall as [Hkey Hall].
    apply Forall_cons in Hall as [Hval _].
    exists key, val. by rewrite <- Hjoin.
  - intros (key & val & -> & Hkey & Hval). unfold token. cbn [fst snd].
    rewrite count_app, count_cons_eq, !count_not_elem_of by done. lia.
Qed.

Lemma lstrip_suffix s :
  ∃ ws, s = ws ++ lstrip s ∧ Forall (λ c, isspace c) ws.
Proof.
  induction s as [|c s (ws & Hs & Hws)]; [by exists []|].
  cbn [lstrip]. destruct (isspace c) eqn:Hc; [|by exists []].
  exists (c :: ws). split; [cbn; congruence|].
  constructor; [by rewrite Hc|done].
Qed.

Lemma lstrip_id_cons c s : lstrip (c :: s) = c :: s → isspace c = false.
Proof.
  cbn [lstrip]. destruct (isspace c); [|done]. intros Heq.
  destruct (lstrip_suffix s) as (ws & Hs & _).
  apply (f_equal length) in Hs, Heq.
  rewrite length_app in Hs. cbn in Heq. lia.
Qed.

Lemma lstrip_app_id c s t : isspace c = false → lstrip ((c :: s) ++ t) = (c :: s) ++ t.
Proof. intros Hc. cbn [app lstrip]. by rewrite Hc. Qed.

Lemma length_lstrip s : length (lstrip s) ≤ length s.
Proof.
  destruct (lstrip_suffix s) as (ws & Hs & _).
  rewrite Hs at 2. rewrite length_app. lia.
Qed.

(** A string that [strip] leaves alone is left alone from both ends. *)
Lemma strip_id s : strip s = s → lstrip s = s ∧ rstrip s = s.
Proof.
  intros Hs. assert (lstrip s = s) as Hl.
  { destruct (lstrip_suffix s) as (ws & Hws & _).
    assert (length (strip s) ≤ length (lstrip s)) as Hlen.
    { unfold strip, rstrip. rewrite length_reverse.
      etrans; [apply length_lstrip|]. by rewrite length_reverse. }
    rewrite Hs in Hlen. apply (f_equal length) in Hws as Hlen'.
    rewrite length_app in Hlen'.
    destruct ws; [done|]. cbn in Hlen'. lia. }
  split; [done|]. unfold strip in Hs. by rewrite Hl in Hs.
Qed.

(** Two stripped, non-empty strings stay as they are around a space. *)
Lemma strip_app_space s t :
  s ≠ [] → t ≠ [] → strip s = s → strip t = t →
  strip (s ++ SPACE :: t) = s ++ SPACE :: t.
Proof.
  intros Hs Ht [Hls _]%strip_id [_ Hrt]%strip_id.
  destruct s as [|c s]; [done|]. apply lstrip_id_cons in Hls.
  unfold strip. rewrite lstrip_app_id by done.
  unfold rstrip in *. apply (f_equal reverse) in Hrt.
  rewrite reverse_involutive in Hrt.
  rewrite reverse_app, reverse_cons.
  destruct (reverse t) as [|c' t'] eqn:Hrev.
  { apply (f_equal reverse) in Hrev. by rewrite reverse_involutive in Hrev. }
  apply lstrip_id_cons in Hrt.
  rewrite <- (assoc_L (++)), lstrip_app_id by done.
  apply (f_equal reverse) in Hrev. rewrite reverse_involutive in Hrev.
  subst t. rewrite !reverse_app, reverse_involutive.
  by rewrite <- (assoc_L (++)).
Qed.

End pieces.

(** ** What the loop does on arbitrary pieces *)

Section outcomes.
Implicit Types (s t p key val : str) (pieces good rest : list str).
Implicit Types (kv : str * str) (kvs : list (str * str)).
Implicit Types (cfgdict d : gmap str str) (st : state).

Lemma pieces_tokens pieces :
  Forall (λ p, SPACE ∉ p) pieces →
  Forall (λ p, count COLON p = 1) pieces →
  ∃ kvs, pieces = token <$> kvs ∧ Forall well_formed kvs.
Proof.
  induction 1 as [|p pieces Hp _ IH]; intros Hone; [by exists []|].
  apply Forall_cons in Hone as [Hc Hone].
  destruct (IH Hone) as (kvs & -> & Hwf).
  apply one_colon_token in Hc as (key & val & -> & Hkey & Hval).
  exists ((key, val) :: kvs). split; [done|]. constructor; [|done].
  unfold token in Hp. cbn [fst snd] in Hp.
  rewrite not_elem_of_app, not_elem_of_cons in Hp. by destruct Hp as (? & _ & ?).
Qed.

Lemma tokens_one_colon kvs :
  Forall well_formed kvs → Forall (λ p, count COLON p = 1) (token <$> kvs).
Proof.
  intros Hwf. apply Forall_fmap. eapply Forall_impl; [done|].
  intros [key val] (_ & Hkey & _ & Hval). apply one_colon_token. by eauto.
Qed.

(** The first piece that is not [key:value] decides the exception. *)
Lemma parseConfig_loop_bad p rest d st :
  SPACE ∉ p → count COLON p ≠ 1 →
  parseConfig_loop (p :: rest) d st
  = (Raise (if decide (p = []) then IndexError else ValueError), st).
Proof.
  intros Hsp Hcount. destruct (decide (p = [])) as [->|Hnil]; [done|].
  rewrite parseConfig_loop_cons by done.
  pose proof (length_split COLON p) as Hlen.
  destruct (split COLON p) as [|? [|? [|? ?]]]; try done.
  cbn in Hlen. congruence.
Qed.

Lemma pieces_first_bad pieces :
  Forall (λ p, count COLON p = 1) pieces
  ∨ ∃ good p rest, pieces = good ++ p :: rest
      ∧ Forall (λ p, count COLON p = 1) good ∧ count COLON p ≠ 1.
Proof.
  induction pieces as [|p pieces IH]; [by left|].
  destruct (decide (count COLON p = 1)) as [Hp|Hp].
  - destruct IH as [IH|(good & q & rest & -> & Hgood & Hq)].
    + left. by constructor.
    + right. exists (p :: good), q, rest.
      split; [done|]. split; [by constructor|done].
  - right. by exists [], p, pieces.
Qed.

Lemma parseConfig_loop_first_bad good p rest d st :
  Forall (λ p, SPACE ∉ p) (good ++ p :: rest) →
  Forall (λ p, count COLON p = 1) good → count COLON p ≠ 1 →
  parseConfig_loop (good ++ p :: rest) d st
  = (Raise (if decide (p = []) then IndexError else ValueError), st).
Proof.
  intros [Hgood Hrest]%Forall_app Hone Hp.
  apply Forall_cons in Hrest as [Hsp _].
  destruct (pieces_tokens good Hgood Hone) as (kvs & -> & Hwf).
  rewrite parseConfig_loop_app by done. by apply parseConfig_loop_bad.
Qed.

(** What a call that returns has read. *)
Lemma parseConfig_Return_inv s st v st' :
  parseConfig (Some s) st = (Return v, st') →
  ∃ kvs, kvs ≠ [] ∧ split SPACE (strip s) = token <$> kvs
         ∧ Forall well_formed kvs
         ∧ v = VDict (list_to_map (reverse kvs)) ∧ st' = st.
Proof.
  rewrite parseConfig_Some. intros Hret.
  pose proof (split_pieces SPACE (strip s)) as Hsp.
  pose proof (split_not_nil SPACE (strip s)) as Hnil.
  destruct (pieces_first_bad (split SPACE (strip s)))
    as [Hone|(good & p & rest & Heq & Hone & Hp)].
  - destruct (pieces_tokens _ Hsp Hone) as (kvs & Heq & Hwf).
    exists kvs. rewrite Heq in Hret, Hnil.
    rewrite parseConfig_loop_tokens in Hret by done.
    rewrite assign_all_list_to_map, (right_id_L ∅ (∪)) in Hret.
    injection Hret as <- <-. by destruct kvs.
  - rewrite Heq in Hret, Hsp.
    by rewrite parseConfig_loop_first_bad in Hret.
Qed.

(** The loop on two runs of pieces is the loop on the first, then on the
    second from the dictionary the first one built. *)
Lemma parseConfig_loop_app_pieces pieces rest d st :
  parseConfig_loop (pieces ++ rest) d st
  = match parseConfig_loop pieces d st with
    | (Return d', st') => parseConfig_loop rest d' st'
    | (Raise e, st') => (Raise e, st')
    end.
Proof.
  revert d. induction pieces as [|p pieces IH]; intros d; [done|].
  destruct p as [|c p]; [done|]. cbn [app parseConfig_loop].
  destruct (c =? SPACE)%N; [apply IH|].
  destruct (split COLON (c :: p)) as [|? [|? [|? ?]]]; done || apply IH.
Qed.

(** Entries that were there before the loop stay unless they are assigned
    again. *)
Lemma parseConfig_loop_union pieces d d0 st :
  parseConfig_loop pieces (d ∪ d0) st
  = match parseConfig_loop pieces d st with
    | (Return r, st') => (Return (r ∪ d0), st')
    | (Raise e, st') => (Raise e, st')
    end.
Proof.
  revert d. induction pieces as [|p pieces IH]; intros d; [done|].
  destruct p as [|c p]; [done|]. cbn [parseConfig_loop].
  destruct (c =? SPACE)%N; [apply IH|].
  destruct (split COLON (c :: p)) as [|key [|val [|? ?]]]; try done.
  rewrite insert_union_l. apply IH.
Qed.

Lemma size_list_to_map_le kvs :
  size (list_to_map kvs : gmap str str) ≤ length kvs.
Proof.
  induction kvs as [|[key val] kvs IH]; [done|].
  rewrite list_to_map_cons, map_size_insert. cbn [length].
  destruct (_ !! _); [apply Nat.le_le_succ_r|apply le_n_S]; apply IH.
Qed.

End outcomes.

(** ** When [parseConfig] returns and when it raises *)

(** X1. On a string, [parseConfig] returns a dictionary exactly when every
    piece between the spaces of the stripped string holds one colon and
    only one, and it raises exactly when some piece does not: a call does
    the one or the other. *)
Theorem parseConfig_returns_iff s st :
  ((∃ d, parseConfig (Some s) st = (Return (VDict d), st))
   ↔ Forall (λ p, count COLON p = 1) (split SPACE (strip s)))
  ∧ ((∃ e, parseConfig (Some s) st = (Raise e, st))
     ↔ ¬ Forall (λ p, count COLON p = 1) (split SPACE (strip s))).
Proof.
  pose proof (split_pieces SPACE (strip s)) as Hsp.
  assert (Forall (λ p, count COLON p = 1) (split SPACE (strip s)) →
          ∃ d, parseConfig (Some s) st = (Return (VDict d), st)) as Hret.
  { intros Hone. destruct (pieces_tokens _ Hsp Hone) as (kvs & Heq & Hwf).
    exists (assign_all ∅ kvs).
    by rewrite parseConfig_Some, Heq, parseConfig_loop_tokens. }
  split; split.
  - intros (d & Hd).
    apply parseConfig_Return_inv in Hd as (kvs & _ & -> & Hwf & _).
    by apply tokens_one_colon.
  - done.
  - intros (e & He) (d & Hd)%Hret. congruence.
  - intros Hnot.
    destruct (pieces_first_bad (split SPACE (strip s)))
      as [Hone|(good & p & rest & Heq & Hgood & Hp)]; [done|].
    rewrite parseConfig_Some, Heq. rewrite Heq in Hsp.
    rewrite parseConfig_loop_first_bad by done. by eexists.
Qed.

(** X2. The first piece that does not hold exactly one colon decides the
    exception: [IndexError] when that piece is empty, [ValueError] when it
    is not; the pieces after it are never looked at, and nothing is
    returned. *)
Theorem parseConfig_first_bad_piece s good p rest st :
  split SPACE (strip s) = good ++ p :: rest →
  Forall (λ q, count COLON q = 1) good → count COLON p ≠ 1 →
  parseConfig (Some s) st
  = (Raise (if decide (p = []) then IndexError else ValueError), st).
Proof.
  intros Heq Hgood Hp. pose proof (split_pieces SPACE (strip s)) as Hsp.
  rewrite parseConfig_Some, Heq. rewrite Heq in Hsp.
  by rewrite parseConfig_loop_first_bad.
Qed.

Lemma parseConfig_first_bad_piece_witness :
  parseConfig (Some (lit "ch:1  cou")) fresh = (Raise IndexError, fresh)
  ∧ parseConfig (Some (lit "ch:1 a:b:c  cou")) fresh
    = (Raise ValueError, fresh).
Proof.
  split.
  - apply (parseConfig_first_bad_piece _ [lit "ch:1"] [] [lit "cou"]).
    + by vm_compute.
    + compute_done.
    + compute_done.
  - apply (parseConfig_first_bad_piece _ [lit "ch:1"] (lit "a:b:c")
             [[]; lit "cou"]).
    + by vm_compute.
    + compute_done.
    + compute_done.
Defined.

(** X3. A dictionary that [parseConfig] returns for a string is never
    empty, and it has at most one entry more than the stripped string has
    spaces. *)
Theorem parseConfig_size s st d st' :
  parseConfig (Some s) st = (Return (VDict d), st') →
  1 ≤ size d ≤ S (count SPACE (strip s)).
Proof.
  intros (kvs & Hnil & Heq & _ & [= ->] & _)%parseConfig_Return_inv. split.
  - apply Nat.neq_0_lt_0, map_size_non_empty_iff.
    destruct (reverse kvs) as [|[key val] l] eqn:Hrev.
    + apply (f_equal reverse) in Hrev. by rewrite reverse_involutive in Hrev.
    + rewrite list_to_map_cons. apply insert_non_empty.
  - etrans; [apply size_list_to_map_le|].
    rewrite length_reverse, <- length_split, Heq. by rewrite length_fmap.
Qed.

Lemma parseConfig_size_witness :
  1 ≤ size ({[lit "ch" := lit "2"; lit "cou" := lit "dc"]} : gmap str str) ≤ 3.
Proof.
  apply (parseConfig_size (lit "  ch:1 cou:dc ch:2 ") fresh _ fresh).
  by vm_compute.
Defined.

(** X4. Every entry of the returned dictionary stood in the string as the
    piece [key:value]; keys and values hold neither a space nor a colon. *)
Theorem parseConfig_entries_from_pieces s st d st' key val :
  parseConfig (Some s) st = (Return (VDict d), st') →
  d !! key = Some val →
  token (key, val) ∈ split SPACE (strip s) ∧ well_formed (key, val).
Proof.
  intros (kvs & _ & -> & Hwf & [= ->] & _)%parseConfig_Return_inv Hlookup.
  apply elem_of_list_to_map_2 in Hlookup.
  rewrite elem_of_reverse in Hlookup. split.
  - by apply (list_elem_of_fmap_2 token).
  - by eapply Forall_forall in Hwf.
Qed.

Lemma parseConfig_entries_from_pieces_witness :
  token (lit "ch", lit "2") ∈ [lit "ch:1"; lit "cou:dc"; lit "ch:2"]
  ∧ well_formed (lit "ch", lit "2").
Proof.
  apply (parseConfig_entries_from_pieces (lit "ch:1 cou:dc ch:2") fresh
           {[lit "ch" := lit "2"; lit "cou" := lit "dc"]} fresh).
  - by vm_compute.
  - by vm_compute.
Defined.

(** X5. When [parseConfig] returns, every piece of the string is a token
    [key:value] whose key is in the dictionary: no piece is skipped. *)
Theorem parseConfig_pieces_in_dict s st d st' p :
  parseConfig (Some s) st = (Return (VDict d), st') →
  p ∈ split SPACE (strip s) →
  ∃ key val, p = token (key, val) ∧ is_Some (d !! key).
Proof.
  intros (kvs & _ & -> & Hwf & [= ->] & _)%parseConfig_Return_inv Hp.
  apply list_elem_of_fmap in Hp as ([key val] & -> & Hkv).
  exists key, val. split; [done|].
  apply elem_of_dom. rewrite dom_list_to_map_L, elem_of_list_to_set.
  rewrite fmap_reverse, elem_of_reverse.
  by apply (list_elem_of_fmap_2 fst) in Hkv.
Qed.

Lemma parseConfig_pieces_in_dict_witness :
  ∃ key val, lit "ch:1" = token (key, val)
    ∧ is_Some (({[lit "ch" := lit "2"; lit "cou" := lit "dc"]}
                 : gmap str str) !! key).
Proof.
  apply (parseConfig_pieces_in_dict (lit "ch:1 cou:dc ch:2") fresh _ fresh).
  - by vm_compute.
  - compute_done.
Defined.

(** X6. [parseConfig] logs its warning for [None] and for nothing else: on
    a string the log stays as it is, also when the call raises. *)
Theorem parseConfig_warnings cfgstr st :
  warnings (parseConfig cfgstr st).2
  = warnings st
    ++ match cfgstr with
       | None => [lit "Empty cfg string passed to the Config Parser"]
       | Some _ => []
       end.
Proof.
  destruct cfgstr as [s|]; [|done]. rewrite (right_id_L [] (++)).
  destruct (parseConfig_loop_pure (split SPACE (strip s)) ∅) as [r Hr].
  rewrite parseConfig_Some, Hr. by destruct r.
Qed.

Lemma parseConfig_outer_whitespace_witness :
  parseConfig (Some ([9; 32]%N ++ lit "ch:1 cou:dc" ++ [13; 10]%N))
  = parseConfig (Some (lit "ch:1 cou:dc")).
Proof.
  apply (parseConfig_outer_whitespace [9; 32]%N (lit "ch:1 cou:dc")
           [13; 10]%N); compute_done.
Defined.

(** ** Putting strings together and building them from a dictionary *)

(** X8. Two stripped, non-empty strings joined by one space parse like the
    first and then the second: the dictionary of the second laid over the
    dictionary of the first when both return, and otherwise the exception
    of the first one that raises. *)
Theorem parseConfig_app s1 s2 st :
  s1 ≠ [] → s2 ≠ [] → strip s1 = s1 → strip s2 = s2 →
  (∀ d1 d2,
     parseConfig (Some s1) st = (Return (VDict d1), st) →
     parseConfig (Some s2) st = (Return (VDict d2), st) →
     parseConfig (Some (s1 ++ SPACE :: s2)) st
     = (Return (VDict (d2 ∪ d1)), st))
  ∧ (∀ e,
       parseConfig (Some s1) st = (Raise e, st) →
       parseConfig (Some (s1 ++ SPACE :: s2)) st = (Raise e, st))
  ∧ (∀ d1 e,
       parseConfig (Some s1) st = (Return (VDict d1), st) →
       parseConfig (Some s2) st = (Raise e, st) →
       parseConfig (Some (s1 ++ SPACE :: s2)) st = (Raise e, st)).
Proof.
  intros Hnil1 Hnil2 Hs1 Hs2.
  assert (∀ r, parseConfig (Some (s1 ++ SPACE :: s2)) st = r ↔
    match parseConfig_loop (split SPACE s1) ∅ st with
    | (Return d1, st') =>
        match parseConfig_loop (split SPACE s2) ∅ st' with
        | (Return d2, st'') => (Return (VDict (d2 ∪ d1)), st'')
        | (Raise e, st'') => (Raise e, st'')
        end
    | (Raise e, st') => (Raise e, st')
    end = r) as Hboth.
  { intros r. rewrite parseConfig_Some, strip_app_space, split_app by done.
    rewrite parseConfig_loop_app_pieces.
    destruct (parseConfig_loop (split SPACE s1) ∅ st) as [[d1|e] st1]; [|done].
    rewrite <- (left_id_L ∅ (∪) d1) at 1. rewrite parseConfig_loop_union.
    by destruct (parseConfig_loop (split SPACE s2) ∅ st1) as [[d2|e] st2]. }
  rewrite !parseConfig_Some, Hs1, Hs2.
  destruct (parseConfig_loop_pure (split SPACE s1) ∅) as [r1 Hr1].
  destruct (parseConfig_loop_pure (split SPACE s2) ∅) as [r2 Hr2].
  repeat split.
  - intros d1 d2 H1 H2. apply Hboth. rewrite Hr1 in H1 |- *.
    destruct r1; [|done]. rewrite Hr2 in H2 |- *. destruct r2; [|done].
    by simplify_eq.
  - intros e H1. apply Hboth. rewrite Hr1 in H1 |- *.
    destruct r1; by simplify_eq.
  - intros d1 e H1 H2. apply Hboth. rewrite Hr1 in H1 |- *.
    destruct r1; [|done]. rewrite Hr2 in H2 |- *.
    destruct r2; by simplify_eq.
Qed.

Lemma parseConfig_app_witness :
  parseConfig (Some (lit "ch:1 cou:ac" ++ SPACE :: lit "cou:dc res:5")) fresh
  = (Return (VDict {[lit "ch" := lit "1"; lit "cou" := lit "dc";
                     lit "res" := lit "5"]}), fresh)
  ∧ parseConfig (Some (lit "ch:1 cou" ++ SPACE :: lit "cou:dc res:5")) fresh
    = (Raise ValueError, fresh).
Proof.
  split.
  - change (VDict _) with
      (VDict ({[lit "cou" := lit "dc"; lit "res" := lit "5"]}
              ∪ {[lit "ch" := lit "1"; lit "cou" := lit "ac"]})).
    apply (proj1 (parseConfig_app (lit "ch:1 cou:ac") (lit "cou:dc res:5")
                    fresh ltac:(done) ltac:(done)
                    ltac:(by vm_compute) ltac:(by vm_compute)));
      by vm_compute.
  - apply (proj1 (proj2 (parseConfig_app (lit "ch:1 cou") (lit "cou:dc res:5")
                    fresh ltac:(done) ltac:(done)
                    ltac:(by vm_compute) ltac:(by vm_compute)))).
    by vm_compute.
Defined.

Lemma cfg_of_not_nil kv kvs : cfg_of (kv :: kvs) ≠ [].
Proof.
  unfold cfg_of. cbn [fmap list_fmap join].
  pose proof (token_not_nil kv) as Hnil.
  destruct (token <$> kvs); [done|]. by destruct (token kv).
Qed.

(** Tokens that [strip] leaves alone make a string that it leaves alone. *)
Lemma strip_cfg_of kvs :
  Forall (λ kv, strip (token kv) = token kv) kvs →
  strip (cfg_of kvs) = cfg_of kvs.
Proof.
  induction 1 as [|kv kvs Hkv Hkvs IH]; [done|].
  destruct kvs as [|kv' kvs]; [done|].
  change (cfg_of (kv :: kv' :: kvs))
    with (token kv ++ SPACE :: cfg_of (kv' :: kvs)).
  apply strip_app_space; auto using token_not_nil, cfg_of_not_nil.
Qed.

(** X9. A non-empty dictionary whose keys and values hold neither a space
    nor a colon, and whose tokens [key:value] neither begin nor end with
    whitespace, is what [parseConfig] returns for its entries written in
    any order as tokens with single spaces between them. *)
Theorem parseConfig_of_dict (d : gmap str str) kvs st :
  d ≠ ∅ →
  map_Forall (λ key val, well_formed (key, val)
                         ∧ strip (token (key, val)) = token (key, val)) d →
  kvs ≡ₚ map_to_list d →
  parseConfig (Some (cfg_of kvs)) st = (Return (VDict d), st).
Proof.
  intros Hnil Hd Hperm.
  apply map_Forall_to_list in Hd. rewrite <- Hperm in Hd.
  assert (Forall well_formed kvs) as Hwf.
  { eapply Forall_impl; [exact Hd|]. intros [key val] Hkv. exact (proj1 Hkv). }
  assert (Forall (λ kv, strip (token kv) = token kv) kvs) as Hstrip.
  { eapply Forall_impl; [exact Hd|]. intros [key val] Hkv. exact (proj2 Hkv). }
  rewrite (parseConfig_cfg_of (cfg_of kvs) kvs).
  - do 3 f_equal. rewrite <- (list_to_map_to_list d).
    apply list_to_map_proper; [|by rewrite reverse_Permutation].
    rewrite fmap_reverse, reverse_Permutation, Hperm.
    apply NoDup_fst_map_to_list.
  - intros ->. apply Permutation_nil_l in Hperm. symmetry in Hperm.
    by apply map_to_list_empty_iff in Hperm.
  - done.
  - by apply strip_cfg_of.
Qed.

Lemma parseConfig_of_dict_witness :
  parseConfig (Some (lit "cou:dc ch:1")) fresh
  = (Return (VDict {[lit "ch" := lit "1"; lit "cou" := lit "dc"]}), fresh)
  ∧ parseConfig (Some (lit "ch:1 cou:dc")) fresh
    = (Return (VDict {[lit "ch" := lit "1"; lit "cou" := lit "dc"]}), fresh).
Proof.
  assert (map_to_list ({[lit "ch" := lit "1"; lit "cou" := lit "dc"]}
                       : gmap str str)
          ≡ₚ [(lit "ch", lit "1"); (lit "cou", lit "dc")]) as Hperm.
  { vm_compute. first [reflexivity | apply perm_swap]. }
  split.
  - apply (parseConfig_of_dict _ [(lit "cou", lit "dc"); (lit "ch", lit "1")]).
    + compute_done.
    + compute_done.
    + rewrite Hperm. apply perm_swap.
  - apply (parseConfig_of_dict _ [(lit "ch", lit "1"); (lit "cou", lit "dc")]).
    + compute_done.
    + compute_done.
    + by rewrite Hperm.
Defined.

(** ** The interfaces *)

(** X10. The three interfaces have three different values, 0, 1 and 2, so
    none of them is an alias of another. *)
Theorem Interfaces_value_inj :
  Inj (=) (=) Interfaces_value
  ∧ ∀ i, (0 ≤ Interfaces_value i ≤ 2)%Z.
Proof.
  split; [by intros [] [] ?|]. intros []; simpl; lia.
Qed.
